(** * ptr/generate.go: the generator of the pointer helpers, and the helpers it emits

    The definitions follow the source file:
    - [GoStrings]: the functions of package [strings] the generator calls;
    - [Catalogue]: the [Import] and [Scalar] descriptors with their derived
      names ([Package], [Name], [Symbol], [Imports]);
    - [Render]: the text templates of [ptrTmpl], [generateFile] and [main];
    - [Emitted]: the Go functions written by the templates, run on an
      explicit store of variables so that [&v] has an address;
    - [Spec]: the vocabulary of the statements.
    The theorems come after them, in the same order. *)

From Stdlib Require Import Ascii String.
From stdpp Require Import gmap strings list fin_maps.

(** ** Go strings

    A Go string is a sequence of bytes; [string] is a sequence of [ascii]
    (eight bits each). *)
Module GoStrings.

(** [strings.Split(s, sep)] for a one-byte separator: the pieces of [s]
    between the occurrences of [sep], in order.  There is always one piece
    more than there are separators. *)
Fixpoint Split (s : string) (sep : ascii) : list string :=
  match s with
  | EmptyString => [EmptyString]
  | String c rest =>
      if Ascii.eqb c sep then EmptyString :: Split rest sep
      else match Split rest sep with
           | [] => [String c EmptyString]
           | piece :: pieces => String c piece :: pieces
           end
  end.

Definition byte_in (lo hi : N) (c : ascii) : bool :=
  (lo <=? N_of_ascii c)%N && (N_of_ascii c <=? hi)%N.

Definition is_lower (c : ascii) : bool := byte_in 97 122 c.
Definition is_upper (c : ascii) : bool := byte_in 65 90 c.
Definition is_digit (c : ascii) : bool := byte_in 48 57 c.
Definition is_7bit (c : ascii) : bool := (N_of_ascii c <=? 127)%N.

(** [strings.Title] is modelled on 7-bit text, where every rune is one byte
    and the library's answers are fixed by its own code.  On text with bytes
    above 0x7F the library decodes runes and consults the Unicode tables,
    which this file does not hold: such text is outside the model, and the
    statements about [Title] below assume 7-bit text.

    [strings.isSeparator] on a 7-bit rune: digits, letters and the
    underscore do not separate words, every other 7-bit rune does. *)
Definition isSeparator (c : ascii) : bool :=
  if is_7bit c then
    negb (is_digit c || is_lower c || is_upper c || Ascii.eqb c "_"%char)
  else false.

(** [unicode.ToTitle] on a 7-bit rune: a lower-case letter becomes the
    upper-case one, every other 7-bit rune is unchanged. *)
Definition ToTitle (c : ascii) : ascii :=
  if is_lower c then ascii_of_N (N_of_ascii c - 32) else c.

(** The closure of [strings.Title]: [prev] is the rune seen before. *)
Fixpoint Title_from (prev : ascii) (s : string) : string :=
  match s with
  | EmptyString => EmptyString
  | String r rest =>
      String (if isSeparator prev then ToTitle r else r) (Title_from r rest)
  end.

(** [strings.Title(s)]: [prev := ' '], then map over the runes. *)
Definition Title (s : string) : string := Title_from " "%char s.

(** [len(s)]. *)
Definition len (s : string) : nat := String.length s.

End GoStrings.

(** ** The type catalogue *)
Module Catalogue.
Import GoStrings.

(** [type Import struct { Path string; Alias string }] *)
Record Import := { Path : string; Alias : string }.

(** [func (i Import) Package() string] *)
Definition Package (i : Import) : string :=
  if negb (len (Alias i) =? 0)%nat then Alias i
  else if negb (len (Path i) =? 0)%nat then
    let parts := Split (Path i) "/"%char in
    List.last parts EmptyString
  else EmptyString.

(** [type Scalar struct { Type string; Import *Import }]; a nil [*Import] is
    [None]. *)
Record Scalar := { Type_ : string; Import_ : option Import }.

(** [func (t Scalar) Name() string] *)
Definition Name (t : Scalar) : string := Title (Type_ t).

(** [func (t Scalar) Symbol() string] *)
Definition Symbol (t : Scalar) : string :=
  match Import_ t with
  | Some i => Package i +:+ "." +:+ Type_ t
  | None => Type_ t
  end.

(** [type Scalars []Scalar] *)
Definition Scalars := list Scalar.

(** [func (ts Scalars) Imports() []*Import]: the loop appends the import of
    every scalar that has one. *)
Definition Imports (ts : Scalars) : list Import :=
  fold_left
    (fun imports t =>
       match Import_ t with
       | Some v => imports ++ [v]
       | None => imports
       end)
    ts [].

Definition builtin (ty : string) : Scalar :=
  {| Type_ := ty; Import_ := None |}.

(** The catalogue [types] of [main]. *)
Definition types : Scalars :=
  [ builtin "string"; builtin "int"; builtin "int8"; builtin "int16";
    builtin "int32"; builtin "int64"; builtin "uint"; builtin "uint8";
    builtin "uint16"; builtin "uint32"; builtin "uint64";
    builtin "float32"; builtin "float64";
    {| Type_ := "Time";
       Import_ := Some {| Path := "time"; Alias := "" |} |} ].

End Catalogue.

(** ** The templates of [ptrTmpl], [generateFile] and [main] *)
Module Render.
Import GoStrings Catalogue.

Definition nl : string := String (ascii_of_nat 10) EmptyString.
Definition tab : string := String (ascii_of_nat 9) EmptyString.
Definition quote : string := String (ascii_of_nat 34) EmptyString.

Fixpoint tabs (n : nat) : string :=
  match n with
  | O => EmptyString
  | S k => tab +:+ tabs k
  end.

(** One line of template text: the line break that precedes it, its
    indentation, and its text.  The trim markers of the templates remove the
    white space before each [{{-], so every template body starts with a line
    break and ends without one. *)
Definition line (indent : nat) (text : string) : string :=
  nl +:+ tabs indent +:+ text.

Definition concat_strings (pieces : list string) : string :=
  foldr String.append EmptyString pieces.

(** The body of [{{ range $_, $import := $.Imports }}]. *)
Definition import_line (i : Import) : string :=
  line 3 (quote +:+ Path i +:+ quote).

(** [{{ define "header" }}] *)
Definition header (ts : Scalars) : string :=
  line 1 "// Code generated by smithy-go/ptr/generate.go DO NOT EDIT."
  +:+ line 1 "package ptr"
  +:+ nl
  +:+ line 1 "import ("
  +:+ concat_strings (import_line <$> Imports ts)
  +:+ line 1 ")".

(** [{{ define "to pointer func" }}] *)
Definition to_pointer_func (t : Scalar) : string :=
  line 1 ("// " +:+ Name t +:+ " returns a pointer value for the "
          +:+ Symbol t +:+ " value passed in.")
  +:+ line 1 ("func " +:+ Name t +:+ "(v " +:+ Symbol t +:+ ") *"
              +:+ Symbol t +:+ " {")
  +:+ line 2 "return &v"
  +:+ line 1 "}".

(** [{{ define "to pointers func" }}] *)
Definition to_pointers_func (t : Scalar) : string :=
  line 1 ("// " +:+ Name t +:+ "Slice returns a slice of " +:+ Symbol t
          +:+ " pointers from the values")
  +:+ line 1 "// passed in."
  +:+ line 1 ("func " +:+ Name t +:+ "Slice(vs []" +:+ Symbol t +:+ ") []*"
              +:+ Symbol t +:+ " {")
  +:+ line 2 ("ps := make([]*" +:+ Symbol t +:+ ", len(vs))")
  +:+ line 2 "for i, v := range vs {"
  +:+ line 3 "ps[i] = &v"
  +:+ line 2 "}"
  +:+ nl
  +:+ line 2 "return ps"
  +:+ line 1 "}"
  +:+ nl
  +:+ line 1 ("// " +:+ Name t +:+ "Map returns a map of " +:+ Symbol t
              +:+ " pointers from the values")
  +:+ line 1 "// passed in."
  +:+ line 1 ("func " +:+ Name t +:+ "Map(vs map[string]" +:+ Symbol t
              +:+ ") map[string]*" +:+ Symbol t +:+ " {")
  +:+ line 2 ("ps := make(map[string]*" +:+ Symbol t +:+ ", len(vs))")
  +:+ line 2 "for k, v := range vs {"
  +:+ line 3 "ps[k] = &v"
  +:+ line 2 "}"
  +:+ nl
  +:+ line 2 "return ps"
  +:+ line 1 "}".

(** [{{ define "from pointer func" }}] *)
Definition from_pointer_func (t : Scalar) : string :=
  line 1 ("// To" +:+ Name t +:+ " returns " +:+ Symbol t
          +:+ " value dereferenced if the passed")
  +:+ line 1 ("// in pointer was not nil. Returns a " +:+ Symbol t
              +:+ " zero value if the")
  +:+ line 1 "// pointer was nil."
  +:+ line 1 ("func To" +:+ Name t +:+ "(p *" +:+ Symbol t +:+ ") (v "
              +:+ Symbol t +:+ ") {")
  +:+ line 2 "if p == nil {"
  +:+ line 3 "return v"
  +:+ line 2 "}"
  +:+ line 3 ""
  +:+ line 2 "return *p"
  +:+ line 1 "}".

(** [{{ define "from pointers func" }}] *)
Definition from_pointers_func (t : Scalar) : string :=
  line 1 ("// To" +:+ Name t +:+ "Slice returns a slice of " +:+ Symbol t
          +:+ " values, that are")
  +:+ line 1 ("// dereferenced if the passed in pointer was not nil. Returns a "
              +:+ Symbol t)
  +:+ line 1 "// zero value if the pointer was nil."
  +:+ line 1 ("func To" +:+ Name t +:+ "Slice(vs []*" +:+ Symbol t +:+ ") []"
              +:+ Symbol t +:+ " {")
  +:+ line 2 ("ps := make([]" +:+ Symbol t +:+ ", len(vs))")
  +:+ line 2 "for i, v := range vs {"
  +:+ line 3 ("ps[i] = To" +:+ Name t +:+ "(v)")
  +:+ line 2 "}"
  +:+ nl
  +:+ line 2 "return ps"
  +:+ line 1 "}"
  +:+ nl
  +:+ line 1 ("// To" +:+ Name t +:+ "Map returns a map of " +:+ Symbol t
              +:+ " values, that are")
  +:+ line 1 ("// dereferenced if the passed in pointer was not nil. The "
              +:+ Symbol t)
  +:+ line 1 "// zero value is used if the pointer was nil."
  +:+ line 1 ("func To" +:+ Name t +:+ "Map(vs map[string]*" +:+ Symbol t
              +:+ ") map[string]" +:+ Symbol t +:+ " {")
  +:+ line 2 ("ps := make(map[string]" +:+ Symbol t +:+ ", len(vs))")
  +:+ line 2 "for k, v := range vs {"
  +:+ line 3 ("ps[k] = To" +:+ Name t +:+ "(v)")
  +:+ line 2 "}"
  +:+ nl
  +:+ line 2 "return ps"
  +:+ line 1 "}".

(** The shape shared by [{{ define "scalar from pointer" }}] and
    [{{ define "scalar to pointer" }}]: the header, then the two function
    templates for each scalar of the catalogue, in its order. *)
Definition document (one many : Scalar -> string) (ts : Scalars) : string :=
  line 1 (header ts)
  +:+ nl
  +:+ line 1 ""
  +:+ concat_strings ((fun t => line 2 (one t) +:+ line 2 (many t)) <$> ts).

Definition scalar_from_pointer : Scalars -> string :=
  document from_pointer_func from_pointers_func.

Definition scalar_to_pointer : Scalars -> string :=
  document to_pointer_func to_pointers_func.

(** What [ptrTmpl.ExecuteTemplate(f, name, types)] does: it writes the whole
    document, or it stops with an error after the text written so far. *)
Inductive rendering :=
| Complete (doc : string)
| Aborted (partial : string).

(** The templates of [ptrTmpl] by name, run on a catalogue.  The three
    templates that take the catalogue render it.  The four function
    templates take one scalar: on the catalogue they stop at their first
    [{{ $.Name }}], after the text before it.  The root template holds the
    line break that follows the last definition.  No other name is
    defined. *)
Definition ExecuteTemplate (name : string) (data : Scalars) : rendering :=
  if String.eqb name "header" then Complete (header data)
  else if String.eqb name "scalar from pointer" then
    Complete (scalar_from_pointer data)
  else if String.eqb name "scalar to pointer" then
    Complete (scalar_to_pointer data)
  else if String.eqb name "to pointer func"
          || String.eqb name "to pointers func" then
    Aborted (line 1 "// ")
  else if String.eqb name "from pointer func"
          || String.eqb name "from pointers func" then
    Aborted (line 1 "// To")
  else if String.eqb name "ptrTmpl" then Complete nl
  else Aborted EmptyString.

(** The working directory: the text of each file, and the names
    [os.Create] refuses. *)
Record directory := {
  files : gmap string string;
  refused : string -> bool
}.

Definition write (filename text : string) (d : directory) : directory :=
  {| files := <[filename := text]> (files d); refused := refused d |}.

(** The two errors of [generateFile], each with the file name it reports. *)
Inductive error :=
| failed_to_create (filename : string)
| failed_to_generate (filename : string).

(** [func generateFile(filename string, tmplName string, types Scalars) error]:
    [os.Create] truncates the file, the template is executed into it, and
    the file is closed on every path. *)
Definition generateFile (filename tmplName : string) (types : Scalars)
    (d : directory) : directory * option error :=
  if refused d filename then (d, Some (failed_to_create filename))
  else
    match ExecuteTemplate tmplName types with
    | Complete doc => (write filename doc d, None)
    | Aborted partial =>
        (write filename partial d, Some (failed_to_generate filename))
    end.

(** The map literal ranged over by [main]: file name to template name. *)
Definition outputs : gmap string string :=
  <["to_ptr.go" := "scalar to pointer"]>
    (<["from_ptr.go" := "scalar from pointer"]> ∅).

(** How [main] ends: it returns, or [log.Fatalf] reports the file and the
    error and exits with status 1. *)
Inductive exit :=
| returned
| fatal (filename : string) (err : error).

(** The loop of [main] over the entries in the order [visit]; Go leaves the
    order of a range over a map open, so [visit] is any enumeration of
    [outputs]. *)
Fixpoint generate_all (visit : list (string * string)) (types : Scalars)
    (d : directory) : directory * exit :=
  match visit with
  | [] => (d, returned)
  | (filename, tmplName) :: rest =>
      match generateFile filename tmplName types d with
      | (d', Some err) => (d', fatal filename err)
      | (d', None) => generate_all rest types d'
      end
  end.

(** [func main()], for the iteration order [visit]. *)
Definition main (visit : list (string * string)) (d : directory)
    : directory * exit :=
  generate_all visit types d.

End Render.

(** ** The emitted helpers

    The six Go functions the templates write for a scalar type [T].  They are
    the same text for every scalar, so the model is generic in [T] and its
    zero value. *)
Module Emitted.

(** When a [for ... := range] statement declares its variables: once for
    the whole statement (the language before Go 1.22, the one this generator
    was written for: it carries a [+build] line and calls [strings.Title]),
    or afresh in every iteration (Go 1.22 and later). *)
Inductive range_vars := per_statement | per_iteration.

(** A pointer is nil or the address of a variable. *)
Definition pointer := option nat.

(** A slice is nil or holds its elements; [len] and [range] treat nil as
    empty. *)
Definition slice (A : Type) := option (list A).

(** A map is nil or holds its entries. *)
Definition gomap (A : Type) := option (gmap string A).

Definition elements {A} (vs : slice A) : list A := default [] vs.

(** The entries of a map, in one order; a range may visit them in any. *)
Definition entries {A} (vs : gomap A) : list (string * A) :=
  match vs with
  | Some m => map_to_list m
  | None => []
  end.

(** The variables of type [T] whose address is taken, by address. *)
Abbreviation store T := (list T) (only parsing).

Section Store.
Context {T : Type}.

(** A computation on the store; [None] is a run-time panic. *)
Definition go (A : Type) := store T -> option (A * store T).

Definition ret {A} (x : A) : go A := fun σ => Some (x, σ).

Definition bind {A B} (m : go A) (k : A -> go B) : go B :=
  fun σ =>
    match m σ with
    | Some (x, σ') => k x σ'
    | None => None
    end.

Definition panic {A} : go A := fun _ => None.

(** Declares a variable holding [v]; gives its address. *)
Definition declare (v : T) : go nat :=
  fun σ => Some (length σ, σ ++ [v]).

(** [*a = v] *)
Definition assign (a : nat) (v : T) : go unit :=
  fun σ => if decide (a < length σ) then Some (tt, <[a := v]> σ) else None.

(** [*a] *)
Definition load (a : nat) : go T :=
  fun σ => match σ !! a with Some v => Some (v, σ) | None => None end.
End Store.

Arguments go : clear implicits.

Declare Scope go_scope.
Delimit Scope go_scope with go.
Notation "'do' x <- m ; k" := (bind m (fun x => k))
  (at level 10, x name, m at level 100, k at level 200) : go_scope.
Notation "m ;; k" := (bind m (fun _ => k))
  (at level 100, k at level 200, right associativity) : go_scope.
Local Open Scope go_scope.

(** [ps[i] = x] on a slice: out of range it panics. *)
Definition set_index {A} (ps : list A) (i : nat) (x : A) : option (list A) :=
  if decide (i < length ps) then Some (<[i := x]> ps) else None.

(** [ps[k] = x] on a map: a nil map panics. *)
Definition set_key {A} (ps : gomap A) (k : string) (x : A)
    : option (gomap A) :=
  match ps with
  | Some m => Some (Some (<[k := x]> m))
  | None => None
  end.

Definition lift {T A} (r : option A) : go T A :=
  match r with
  | Some x => ret x
  | None => panic
  end.

(** [for i, v := range vs { body }] over the elements from index [i] on;
    [acc] is what the body updates. *)
Fixpoint range_from {T A B} (body : nat -> A -> B -> go T B)
    (i : nat) (vs : list A) (acc : B) : go T B :=
  match vs with
  | [] => ret acc
  | v :: rest => do acc' <- body i v acc; range_from body (S i) rest acc'
  end.

(** [for k, v := range vs { body }] over the entries in the order given. *)
Fixpoint range_entries {T A B} (body : string -> A -> B -> go T B)
    (visit : list (string * A)) (acc : B) : go T B :=
  match visit with
  | [] => ret acc
  | (k, v) :: rest => do acc' <- body k v acc; range_entries body rest acc'
  end.

Section Helpers.
Context {T : Type} (zero : T) (vars : range_vars).

(** [func X(v T) *T { return &v }]: the parameter is a variable of
    the call. *)
Definition Ptr (v : T) : go T pointer :=
  do a <- declare v; ret (Some a).

(** [func ToX(p *T) (v T)] *)
Definition To (p : pointer) : go T T :=
  match p with
  | None => ret zero
  | Some a => load a
  end.

(** The variable [v] of a range statement and the address [&v] in the
    iteration whose element is [x]: [shared] is the variable of the
    statement, if it has one. *)
Definition iteration_var (shared : option nat) (x : T) : go T nat :=
  match shared with
  | Some a => assign a x;; ret a
  | None => declare x
  end.

Definition statement_var : go T (option nat) :=
  match vars with
  | per_statement => do a <- declare zero; ret (Some a)
  | per_iteration => ret None
  end.

(** [func XSlice(vs []T) []*T] *)
Definition Slice (vs : slice T) : go T (slice pointer) :=
  let ps := replicate (length (elements vs)) (None : pointer) in
  do shared <- statement_var;
  do ps <- range_from
             (fun i x ps =>
                do a <- iteration_var shared x;
                lift (set_index ps i (Some a)))
             0 (elements vs) ps;
  ret (Some ps).

(** [func XMap(vs map[string]T) map[string]*T], ranging in the order
    [visit]. *)
Definition Map (visit : list (string * T)) (vs : gomap T)
    : go T (gomap pointer) :=
  let ps : gomap pointer := Some ∅ in
  do shared <- statement_var;
  range_entries
    (fun k x ps =>
       do a <- iteration_var shared x;
       lift (set_key ps k (Some a)))
    visit ps.

(** [func ToXSlice(vs []*T) []T] *)
Definition ToSlice (vs : slice pointer) : go T (slice T) :=
  let ps := replicate (length (elements vs)) zero in
  do ps <- range_from
             (fun i v ps => do x <- To v; lift (set_index ps i x))
             0 (elements vs) ps;
  ret (Some ps).

(** [func ToXMap(vs map[string]*T) map[string]T], ranging in the order
    [visit]. *)
Definition ToMap (visit : list (string * pointer)) (vs : gomap pointer)
    : go T (gomap T) :=
  let ps : gomap T := Some ∅ in
  range_entries
    (fun k v ps => do x <- To v; lift (set_key ps k x))
    visit ps.

End Helpers.

End Emitted.

(** ** Specification vocabulary *)
Module Spec.
Import GoStrings Catalogue Render Emitted.

(** The bytes of Go identifiers in 7-bit text. *)
Definition identifier_byte (c : ascii) : bool :=
  is_digit c || is_lower c || is_upper c || Ascii.eqb c "_"%char.

Fixpoint identifier (s : string) : bool :=
  match s with
  | EmptyString => true
  | String c rest => identifier_byte c && identifier rest
  end.

(** Text of 7-bit bytes only. *)
Fixpoint seven_bit (s : string) : bool :=
  match s with
  | EmptyString => true
  | String c rest => is_7bit c && seven_bit rest
  end.

(** The byte at index [i] of [s] starts a word: it is the first byte, or the
    byte before it is not a letter, a digit or an underscore. *)
Definition starts_word (i : nat) (s : string) : bool :=
  match i with
  | O => true
  | S j =>
      match String.get j s with
      | Some before => negb (identifier_byte before)
      | None => false
      end
  end.

(** The first character upper-cased, the others unchanged. *)
Definition upper_first (s : string) : string :=
  match s with
  | EmptyString => EmptyString
  | String c rest => String (ToTitle c) rest
  end.

Fixpoint has_byte (sep : ascii) (s : string) : bool :=
  match s with
  | EmptyString => false
  | String c rest => Ascii.eqb c sep || has_byte sep rest
  end.

(** [seg] is what follows the last [sep] of [s], or all of [s] when it has
    none. *)
Definition last_segment (sep : ascii) (s seg : string) : Prop :=
  has_byte sep seg = false /\
  (s = seg \/ exists before, s = before +:+ String sep seg).

(** The import block of the header: its lines, one string each. *)
Definition import_block (ts : Scalars) : list string :=
  import_line <$> Imports ts.

(** Two scalars of the package [time]. *)
Definition two_from_time : Scalars :=
  [ {| Type_ := "Time";
       Import_ := Some {| Path := "time"; Alias := "" |} |};
    {| Type_ := "Duration";
       Import_ := Some {| Path := "time"; Alias := "" |} |} ].

(** A pointer that is nil or the address of a variable of the store. *)
Definition allocated {T} (σ : store T) (p : pointer) : Prop :=
  match p with
  | Some a => a < length σ
  | None => True
  end.

(** What [ToX] reads through a pointer that is [allocated]. *)
Definition read {T} (zero : T) (σ : store T) (p : pointer) : T :=
  match p with
  | Some a => default zero (σ !! a)
  | None => zero
  end.

(** The store after the iterations of a loop over [vs], when the iteration on
    [x] turns the store [σ] into [h x σ]. *)
Definition after {T A} (h : A -> store T -> store T) (σ : store T)
    (vs : list A) : store T :=
  foldl (fun σ x => h x σ) σ vs.

(** [os.Create] accepts both output names. *)
Definition creatable (d : directory) : Prop :=
  refused d "to_ptr.go" = false /\ refused d "from_ptr.go" = false.

(** The document that belongs in the file [filename]: the rendering of the
    template that [main] pairs with it. *)
Definition expected (filename : string) (ts : Scalars) : option string :=
  match outputs !! filename with
  | Some tmplName =>
      match ExecuteTemplate tmplName ts with
      | Complete doc => Some doc
      | Aborted _ => None
      end
  | None => None
  end.

(** A directory without files in which every file can be created. *)
Definition empty_directory : directory :=
  {| files := ∅; refused := fun _ => false |}.

(** The function bodies of a document: the two templates [one] and [many]
    for each scalar, in the order of the catalogue. *)
Definition functions (one many : Scalar -> string) (ts : Scalars) : string :=
  concat_strings ((fun t => line 2 (one t) +:+ line 2 (many t)) <$> ts).

(** [ExecuteTemplate] completes for this template name. *)
Definition renders (tmplName : string) (ts : Scalars) : bool :=
  match ExecuteTemplate tmplName ts with
  | Complete _ => true
  | Aborted _ => false
  end.

(** Two sample maps: two integers, and a nil pointer beside the address of
    the first variable. *)
Definition two_ints : gmap string Z := <["a" := 1%Z]> (<["b" := 2%Z]> ∅).

Definition nil_and_first : gmap string pointer :=
  <["a" := None]> (<["b" := Some 0]> ∅).

(** The string ends in a slash. *)
Definition ends_in_slash (s : string) : Prop :=
  exists before, s = before +:+ String "/"%char EmptyString.

End Spec.

Import GoStrings Catalogue Render Emitted Spec.

Global Instance Import_eq_dec : EqDecision Import.
Proof. solve_decision. Defined.

(** ** The catalogue and its derived names *)
Section CatalogueFacts.

Local Arguments String.append !_ _ / : simpl nomatch.

Lemma Split_not_nil s sep : Split s sep <> [].
Proof.
  destruct s as [|c rest]; simpl; [done|].
  destruct (Ascii.eqb c sep); [done|].
  by destruct (Split rest sep).
Qed.

(** [Split] either finds no separator and returns the string whole, or its
    last piece is what follows the last separator. *)
Lemma Split_cases s sep :
  (has_byte sep s = false /\ Split s sep = [s]) \/
  (exists before seg,
      s = before +:+ String sep seg /\ has_byte sep seg = false /\
      2 <= length (Split s sep) /\
      List.last (Split s sep) EmptyString = seg).
Proof.
  induction s as [|c rest IH]; [by left|].
  simpl Split; simpl has_byte.
  destruct (Ascii.eqb c sep) eqn:Hc.
  - apply Ascii.eqb_eq in Hc as ->. right.
    destruct IH as [[Hno ->]|(before & seg & -> & Hno & Hlen & Hlast)].
    + exists EmptyString, rest. repeat split; simpl; [done|lia].
    + exists (String sep before), seg. repeat split; [done|simpl; lia|].
      destruct (Split _ sep) as [|? ?]; [simpl in Hlen; lia|done].
  - destruct IH as [[Hno ->]|(before & seg & -> & Hno & Hlen & Hlast)].
    + by left.
    + right. exists (String c before), seg.
      destruct (Split _ sep) as [|piece [|piece' pieces]];
        [simpl in Hlen; lia..|].
      repeat split; [done|simpl; lia|done].
Qed.

Lemma Split_last_segment s sep :
  last_segment sep s (List.last (Split s sep) EmptyString).
Proof.
  destruct (Split_cases s sep)
    as [[Hno ->]|(before & seg & -> & Hno & _ & ->)].
  - split; [done|by left].
  - split; [done|right; by exists before].
Qed.

Lemma append_has_byte sep a b :
  has_byte sep (a +:+ b) = has_byte sep a || has_byte sep b.
Proof.
  induction a as [|c a IH]; [done|].
  simpl. rewrite IH. by rewrite orb_assoc.
Qed.

Lemma has_byte_after sep a b : has_byte sep (a +:+ String sep b) = true.
Proof.
  rewrite append_has_byte. simpl.
  by rewrite Ascii.eqb_refl, orb_true_r.
Qed.

Lemma append_inj_no_sep sep a a' b b' :
  has_byte sep b = false -> has_byte sep b' = false ->
  a +:+ String sep b = a' +:+ String sep b' -> b = b'.
Proof.
  intros Hb Hb'. revert a'.
  induction a as [|c a IH]; intros [|c' a'] Heq; simpl in Heq.
  - congruence.
  - injection Heq as _ Heq. rewrite Heq, has_byte_after in Hb. done.
  - injection Heq as _ Heq. rewrite <- Heq, has_byte_after in Hb'. done.
  - injection Heq as _ Heq. by apply (IH a').
Qed.

(** A string has one last segment. *)
Lemma last_segment_unique sep s seg seg' :
  last_segment sep s seg -> last_segment sep s seg' -> seg = seg'.
Proof.
  intros [Hno [->|[a ->]]] [Hno' [Heq|[a' Heq]]].
  - done.
  - rewrite Heq, has_byte_after in Hno. done.
  - subst seg'. rewrite has_byte_after in Hno'. done.
  - by eapply append_inj_no_sep.
Qed.

Lemma len_0 s : (len s =? 0)%nat = true <-> s = EmptyString.
Proof. destruct s; simpl; split; intros; congruence. Qed.

Lemma Package_alias i : Alias i <> EmptyString -> Package i = Alias i.
Proof.
  intros Ha. unfold Package.
  destruct (len (Alias i) =? 0)%nat eqn:E; [|done].
  by apply len_0 in E.
Qed.

Lemma Package_no_alias i :
  Alias i = EmptyString ->
  Package i = List.last (Split (Path i) "/"%char) EmptyString.
Proof.
  intros Ha. unfold Package. rewrite Ha. simpl.
  destruct (len (Path i) =? 0)%nat eqn:E; [|done].
  apply len_0 in E. by rewrite E.
Qed.

(** The loop of [Imports] keeps the imports in catalogue order. *)
Lemma Imports_omap ts : Imports ts = omap Import_ ts.
Proof.
  unfold Imports.
  enough (forall acc,
    fold_left
      (fun imports t =>
         match Import_ t with Some v => imports ++ [v] | None => imports end)
      ts acc = acc ++ omap Import_ ts) as H by apply (H []).
  induction ts as [|t ts IH]; intros acc; simpl.
  - by rewrite app_nil_r.
  - rewrite IH. destruct (Import_ t); [|done].
    by rewrite <- app_assoc.
Qed.

Lemma Title_from_identifier prev s :
  isSeparator prev = false -> identifier s = true -> Title_from prev s = s.
Proof.
  revert prev. induction s as [|c s IH]; intros prev Hprev Hs; [done|].
  simpl in *. rewrite Hprev.
  apply andb_true_iff in Hs as [Hc Hs].
  f_equal. apply IH; [|done].
  unfold isSeparator, identifier_byte in *.
  destruct (is_7bit c); [|done]. by rewrite Hc.
Qed.

Lemma count_omap_Import i ts :
  length (filter (eq i) (omap Import_ ts)) =
  length (filter (fun t => Import_ t = Some i) ts).
Proof.
  induction ts as [|t ts IH]; [done|].
  assert (omap Import_ (t :: ts) =
          match Import_ t with
          | Some j => j :: omap Import_ ts
          | None => omap Import_ ts
          end) as -> by reflexivity.
  rewrite (filter_cons _ t). destruct (Import_ t) as [j|].
  - rewrite filter_cons. destruct (decide (i = j)) as [->|Hne].
    + rewrite decide_True by done. simpl. by rewrite IH.
    + rewrite decide_False by congruence. done.
  - rewrite decide_False by done. done.
Qed.

(** C3, as stated, fails: with two catalogue entries of the module [time]
    the import block has the line of [time] twice. *)
Lemma import_block_repeats_module :
  import_block two_from_time =
    [line 3 (quote +:+ "time" +:+ quote); line 3 (quote +:+ "time" +:+ quote)]
  /\ ~ NoDup (import_block two_from_time).
Proof.
  split; [reflexivity|].
  intros Hnd. apply NoDup_cons in Hnd as [Hnotin _].
  apply Hnotin. by left.
Qed.

(** C3, as amended: the import block of the header is one line per
    catalogue entry that declares an import, in catalogue order and without
    de-duplication; the module of [N] entries is listed [N] times, so once
    when one entry declares it. *)
Theorem import_block_one_line_per_import ts :
  header ts =
    line 1 "// Code generated by smithy-go/ptr/generate.go DO NOT EDIT."
    +:+ line 1 "package ptr" +:+ nl +:+ line 1 "import ("
    +:+ concat_strings (import_block ts) +:+ line 1 ")"
  /\ import_block ts = import_line <$> omap Import_ ts
  /\ forall i,
      length (filter (eq i) (Imports ts)) =
      length (filter (fun t => Import_ t = Some i) ts).
Proof.
  split; [reflexivity|]. split.
  - unfold import_block. by rewrite Imports_omap.
  - intros i. rewrite Imports_omap. apply count_omap_Import.
Qed.

(** C8, as stated, fails: an import whose path ends in a slash, and no
    alias, has the empty package name. *)
Lemma Package_can_be_empty :
  Package {| Path := "github.com/aws/"; Alias := "" |} = EmptyString.
Proof. reflexivity. Qed.

(** C8, as amended: [Package] is the alias when the alias is not empty, and
    otherwise what follows the last slash of the path (the whole path when
    it has no slash); it is empty exactly when the alias is empty and the
    path is empty or ends in a slash. *)
Theorem Package_reference_name i :
  (Alias i <> EmptyString -> Package i = Alias i)
  /\ (Alias i = EmptyString -> last_segment "/"%char (Path i) (Package i))
  /\ (Package i = EmptyString <->
      Alias i = EmptyString /\
      (Path i = EmptyString \/
       exists before, Path i = before +:+ String "/"%char EmptyString)).
Proof.
  split; [apply Package_alias|]. split.
  - intros Ha. rewrite Package_no_alias by done. apply Split_last_segment.
  - split.
    + intros Hp.
      destruct (decide (Alias i = EmptyString)) as [Ha|Ha];
        [|by rewrite Package_alias in Hp].
      split; [done|].
      rewrite Package_no_alias in Hp by done.
      destruct (Split_cases (Path i) "/"%char)
        as [[_ Hs]|(before & seg & Hpath & _ & _ & Hlast)].
      * left. rewrite Hs in Hp. done.
      * right. exists before. congruence.
    + intros [Ha Hpath]. rewrite Package_no_alias by done.
      destruct Hpath as [->|[before Hpath]]; [done|].
      eapply (last_segment_unique "/"%char (Path i));
        [apply Split_last_segment|].
      split; [done|right; by exists before].
Qed.

(** C9, as stated, fails: in a type name of two words [Name] upper-cases
    the first letter of both. *)
Lemma Name_upper_cases_every_word :
  Name (builtin "chan int") = "Chan Int"
  /\ Name (builtin "chan int") <> upper_first (Type_ (builtin "chan int")).
Proof. split; [reflexivity|discriminate]. Qed.

(** For a type name made of 7-bit letters, digits and underscores, [Name]
    is the type name with its first character upper-cased and the others
    unchanged. *)
Lemma Name_upper_first t :
  identifier (Type_ t) = true -> Name t = upper_first (Type_ t).
Proof.
  unfold Name, Title. destruct (Type_ t) as [|c rest]; [done|].
  simpl. intros [Hc Hrest]%andb_true_iff.
  f_equal. apply Title_from_identifier; [|done].
  unfold isSeparator. destruct (is_7bit c); [|done].
  unfold identifier_byte in Hc. by rewrite Hc.
Qed.

Lemma length_Title_from prev s :
  String.length (Title_from prev s) = String.length s.
Proof.
  revert prev. induction s as [|r rest IH]; intros prev; [done|].
  simpl. by rewrite IH.
Qed.

Lemma get_before i s c :
  String.get (S i) s = Some c -> exists before, String.get i s = Some before.
Proof.
  revert i. induction s as [|r rest IH]; intros i Hget; [done|].
  destruct i as [|i]; [by exists r|]. simpl in *. by apply IH.
Qed.

Lemma seven_bit_get s i c :
  seven_bit s = true -> String.get i s = Some c -> is_7bit c = true.
Proof.
  revert i. induction s as [|r rest IH]; intros i Hs Hget; [done|].
  simpl in Hs. apply andb_true_iff in Hs as [Hr Hrest].
  destruct i as [|i]; simpl in Hget; [congruence|]. by apply (IH i).
Qed.

Lemma isSeparator_7bit c :
  is_7bit c = true -> isSeparator c = negb (identifier_byte c).
Proof. intros H. unfold isSeparator, identifier_byte. by rewrite H. Qed.

(** The byte [Title_from] leaves at an index depends on the byte before it,
    which is [prev] at index 0. *)
Lemma get_Title_from s : forall prev i c,
  String.get i s = Some c ->
  String.get i (Title_from prev s) =
    Some (if isSeparator
               match i with
               | O => prev
               | S j => default prev (String.get j s)
               end
          then ToTitle c else c).
Proof.
  induction s as [|r rest IH]; intros prev i c Hget; [done|].
  destruct i as [|i]; simpl in Hget.
  - injection Hget as ->. reflexivity.
  - simpl Title_from. simpl String.get at 1.
    rewrite (IH r i c Hget). do 3 f_equal.
    destruct i as [|i]; [done|].
    destruct (get_before i rest c Hget) as [before Hbefore].
    simpl. by rewrite Hbefore.
Qed.

(** ["8bit int8"] has two words by the rule of [strings.Title]: a digit
    does not separate, so only the letter after the space changes. *)
Lemma Name_words_after_separators_only :
  Name (builtin "8bit int8") = "8bit Int8".
Proof. reflexivity. Qed.

(** C9, as amended: on a type name of 7-bit text [Name] keeps the length and
    changes nothing but the case of the bytes that start a word: the byte at
    an index is upper-cased when it is the first byte or follows a byte that
    is not a letter, a digit or an underscore, and is unchanged otherwise.
    So for a type name made of 7-bit letters, digits and underscores [Name]
    is the type name with exactly its first character upper-cased and the
    others unchanged. *)
Theorem Name_title_cases_words t :
  seven_bit (Type_ t) = true ->
  String.length (Name t) = String.length (Type_ t)
  /\ (forall i c,
        String.get i (Type_ t) = Some c ->
        String.get i (Name t) =
          Some (if starts_word i (Type_ t) then ToTitle c else c))
  /\ (identifier (Type_ t) = true -> Name t = upper_first (Type_ t)).
Proof.
  intros H7. split; [apply length_Title_from|].
  split; [|apply Name_upper_first].
  intros i c Hget. unfold Name, Title.
  rewrite (get_Title_from (Type_ t) " "%char i c Hget).
  destruct i as [|i]; [done|].
  destruct (get_before i (Type_ t) c Hget) as [before Hbefore].
  unfold starts_word. rewrite Hbefore. simpl.
  by rewrite (isSeparator_7bit before (seven_bit_get _ i before H7 Hbefore)).
Qed.

Lemma Name_title_cases_words_witness :
  String.length (Name (builtin "8bit int8")) =
    String.length (Type_ (builtin "8bit int8"))
  /\ (forall i c,
        String.get i (Type_ (builtin "8bit int8")) = Some c ->
        String.get i (Name (builtin "8bit int8")) =
          Some (if starts_word i (Type_ (builtin "8bit int8"))
                then ToTitle c else c))
  /\ (identifier (Type_ (builtin "8bit int8")) = true ->
      Name (builtin "8bit int8") =
        upper_first (Type_ (builtin "8bit int8"))).
Proof.
  apply (Name_title_cases_words (builtin "8bit int8")). reflexivity.
Defined.

(** Every entry of the catalogue of [main] is such a name. *)
Lemma types_identifiers : Forall (fun t => identifier (Type_ t) = true) types.
Proof. repeat constructor. Qed.

End CatalogueFacts.

(** ** Rendering and the emitter *)
Section RenderFacts.

Lemma outputs_entries :
  map_to_list outputs =
    [("from_ptr.go", "scalar from pointer"); ("to_ptr.go", "scalar to pointer")].
Proof. reflexivity. Qed.

Lemma outputs_names filename :
  is_Some (outputs !! filename) ->
  filename = "to_ptr.go" \/ filename = "from_ptr.go".
Proof.
  unfold outputs. intros [tmplName H].
  destruct (decide (filename = "to_ptr.go")) as [|Hto]; [by left|].
  rewrite lookup_insert_ne in H by done.
  destruct (decide (filename = "from_ptr.go")) as [|Hfrom]; [by right|].
  rewrite lookup_insert_ne in H by done.
  by rewrite lookup_empty in H.
Qed.

(** A creatable file receives the document of a catalogue template, whatever
    the catalogue holds. *)
Lemma generateFile_to ts filename d :
  refused d filename = false ->
  generateFile filename "scalar to pointer" ts d =
    (write filename (scalar_to_pointer ts) d, None).
Proof. intros H. unfold generateFile. by rewrite H. Qed.

Lemma generateFile_from ts filename d :
  refused d filename = false ->
  generateFile filename "scalar from pointer" ts d =
    (write filename (scalar_from_pointer ts) d, None).
Proof. intros H. unfold generateFile. by rewrite H. Qed.

(** Both orders of the loop of [main] leave the same two documents. *)
Lemma generate_all_files ts visit d filename :
  visit ≡ₚ map_to_list outputs -> creatable d ->
  is_Some (outputs !! filename) ->
  files (generate_all visit ts d).1 !! filename = expected filename ts
  /\ (generate_all visit ts d).2 = returned.
Proof.
  intros Hvisit [Hto Hfrom] Hname.
  rewrite outputs_entries in Hvisit. symmetry in Hvisit.
  apply Permutation_length_2_inv in Hvisit as [->| ->];
    simpl generate_all.
  - rewrite generateFile_from by exact Hfrom.
    rewrite generateFile_to by exact Hto.
    split; [|reflexivity].
    apply outputs_names in Hname as [->| ->]; simpl; by simplify_map_eq.
  - rewrite generateFile_to by exact Hto.
    rewrite generateFile_from by exact Hfrom.
    split; [|reflexivity].
    apply outputs_names in Hname as [->| ->]; simpl; by simplify_map_eq.
Qed.

(** C6: rendering a catalogue twice gives byte-identical documents.  Two
    runs of the loop of [main], each ranging over the map of outputs in an
    order of its own and each in a directory of its own, write the same
    text to each file: the rendering of the file's template. *)
Theorem rendering_twice_is_byte_identical ts visit1 visit2 d1 d2 filename :
  visit1 ≡ₚ map_to_list outputs -> visit2 ≡ₚ map_to_list outputs ->
  creatable d1 -> creatable d2 ->
  is_Some (outputs !! filename) ->
  files (generate_all visit1 ts d1).1 !! filename =
    files (generate_all visit2 ts d2).1 !! filename
  /\ files (generate_all visit1 ts d1).1 !! filename = expected filename ts
  /\ is_Some (expected filename ts).
Proof.
  intros Hv1 Hv2 Hd1 Hd2 Hname.
  destruct (generate_all_files ts visit1 d1 filename) as [H1 _]; [done..|].
  destruct (generate_all_files ts visit2 d2 filename) as [H2 _]; [done..|].
  split; [congruence|]. split; [done|].
  apply outputs_names in Hname as [->| ->]; by eexists.
Qed.

Lemma rendering_twice_is_byte_identical_witness :
  files (generate_all
           [("to_ptr.go", "scalar to pointer");
            ("from_ptr.go", "scalar from pointer")]
           types empty_directory).1 !! "to_ptr.go" =
    files (generate_all
             [("from_ptr.go", "scalar from pointer");
              ("to_ptr.go", "scalar to pointer")]
             types empty_directory).1 !! "to_ptr.go"
  /\ files (generate_all
              [("to_ptr.go", "scalar to pointer");
               ("from_ptr.go", "scalar from pointer")]
              types empty_directory).1 !! "to_ptr.go" =
       expected "to_ptr.go" types
  /\ is_Some (expected "to_ptr.go" types).
Proof.
  apply (rendering_twice_is_byte_identical types
           [("to_ptr.go", "scalar to pointer");
            ("from_ptr.go", "scalar from pointer")]
           [("from_ptr.go", "scalar from pointer");
            ("to_ptr.go", "scalar to pointer")]
           empty_directory empty_directory "to_ptr.go").
  - rewrite outputs_entries. apply perm_swap.
  - rewrite outputs_entries. reflexivity.
  - split; reflexivity.
  - split; reflexivity.
  - by eexists.
Defined.

(** C7, as stated, fails: a catalogue that repeats a type name, and one with
    an empty type name, are generated without an error; the first document
    defines the functions of [int] twice. *)
Lemma generateFile_accepts_invalid_entries :
  generateFile "to_ptr.go" "scalar to pointer"
    [builtin "int"; builtin "int"] empty_directory =
    (write "to_ptr.go"
       (line 1 (header []) +:+ nl +:+ line 1 ""
        +:+ line 2 (to_pointer_func (builtin "int"))
        +:+ line 2 (to_pointers_func (builtin "int"))
        +:+ line 2 (to_pointer_func (builtin "int"))
        +:+ line 2 (to_pointers_func (builtin "int")))
       empty_directory, None)
  /\ (generateFile "to_ptr.go" "scalar to pointer"
        [builtin ""] empty_directory).2 = None.
Proof. split; reflexivity. Qed.

(** C7, as amended: nothing validates the catalogue.  Whenever the file can
    be created, [generateFile] writes the document of either kind for every
    catalogue and returns no error; the catalogue of [main] has distinct,
    non-empty type names. *)
Theorem generateFile_accepts_every_catalogue ts filename d :
  refused d filename = false ->
  generateFile filename "scalar to pointer" ts d =
    (write filename (scalar_to_pointer ts) d, None)
  /\ generateFile filename "scalar from pointer" ts d =
       (write filename (scalar_from_pointer ts) d, None)
  /\ NoDup (Type_ <$> types)
  /\ EmptyString ∉ Type_ <$> types.
Proof.
  intros H. split; [by apply generateFile_to|].
  split; [by apply generateFile_from|].
  split; apply (bool_decide_unpack _); vm_compute; reflexivity.
Qed.

Lemma generateFile_accepts_every_catalogue_witness :
  generateFile "to_ptr.go" "scalar to pointer"
    [builtin "int"; builtin ""; builtin "int"] empty_directory =
    (write "to_ptr.go"
       (scalar_to_pointer [builtin "int"; builtin ""; builtin "int"])
       empty_directory, None)
  /\ generateFile "to_ptr.go" "scalar from pointer"
       [builtin "int"; builtin ""; builtin "int"] empty_directory =
       (write "to_ptr.go"
          (scalar_from_pointer [builtin "int"; builtin ""; builtin "int"])
          empty_directory, None)
  /\ NoDup (Type_ <$> types)
  /\ EmptyString ∉ Type_ <$> types.
Proof.
  apply (generateFile_accepts_every_catalogue
           [builtin "int"; builtin ""; builtin "int"]
           "to_ptr.go" empty_directory).
  reflexivity.
Defined.

End RenderFacts.

(** ** The emitted helpers on single values *)
Section PointerFacts.
Context {T : Type} (zero : T).

Local Open Scope go_scope.

Lemma load_declared (σ : store T) v : load (length σ) (σ ++ [v]) = Some (v, σ ++ [v]).
Proof. unfold load. by rewrite list_lookup_middle. Qed.

(** C4: [ToX(X(v))] is [v], for every value [v] and whatever variables
    exist already; the call of [X] leaves one more variable, holding [v]. *)
Theorem To_Ptr_roundtrip (v : T) (σ : store T) :
  (do p <- Ptr v; To zero p) σ = Some (v, σ ++ [v]).
Proof. unfold Ptr, bind, declare, ret, To. apply load_declared. Qed.

(** C5: on a nil pointer [ToX] returns the zero value, on the address of a
    variable the value it holds, and it never panics; the store is left as
    it was. *)
Theorem To_never_fails (σ : store T) (p : pointer) :
  allocated σ p ->
  exists v,
    To zero p σ = Some (v, σ)
    /\ match p with
       | None => v = zero
       | Some a => σ !! a = Some v
       end.
Proof.
  destruct p as [a|]; intros Ha.
  - destruct (lookup_lt_is_Some_2 σ a Ha) as [v Hv].
    exists v. split; [|done]. unfold To, load. by rewrite Hv.
  - by exists zero.
Qed.

(** C10: on a nil slice or map each of the four container helpers returns
    a container that is not nil and has no element. *)
Theorem nil_containers_give_empty_containers (vars : range_vars) (σ : store T) :
  (exists σ', Slice zero vars None σ = Some (Some [], σ'))
  /\ (exists σ', Map zero vars (entries None) None σ = Some (Some ∅, σ'))
  /\ ToSlice zero None σ = Some (Some [], σ)
  /\ ToMap zero (entries None) None σ = Some (Some ∅, σ).
Proof.
  repeat split; try reflexivity; destruct vars; eexists; reflexivity.
Qed.

End PointerFacts.

Lemma To_never_fails_witness :
  exists v : string,
    To EmptyString (Some 0) ["x"] = Some (v, ["x"])
    /\ ["x"] !! 0 = Some v.
Proof.
  apply (To_never_fails EmptyString ["x"] (Some 0)). simpl. lia.
Defined.

(** ** Loops that fill a container

    The four container helpers share one shape: each iteration computes an
    entry from the element and the store, stores it under the index or key of
    the element, and updates the store.  The two lemmas below say what such a
    loop leaves. *)
Section RangeFrom.
Context {T A B : Type}.
Variable body : nat -> A -> list B -> go T (list B).
Variable g : A -> store T -> B.
Variable h : A -> store T -> store T.
Variable P : store T -> A -> Prop.

Hypothesis body_step : forall i x acc σ,
  P σ x -> i < length acc -> body i x acc σ = Some (<[i := g x σ]> acc, h x σ).
Hypothesis P_step : forall x y σ, P σ x -> P σ y -> P (h x σ) y.

Lemma range_from_fills vs : forall i acc σ,
  Forall (P σ) vs -> i + length vs <= length acc ->
  exists acc',
    range_from body i vs acc σ = Some (acc', after h σ vs)
    /\ length acc' = length acc
    /\ (forall j, j < i -> acc' !! j = acc !! j)
    /\ (forall k x, vs !! k = Some x ->
          acc' !! (i + k) = Some (g x (after h σ (take k vs)))).
Proof.
  induction vs as [|x vs IH]; intros i acc σ HP Hlen.
  - exists acc. split; [done|]. split; [done|]. split; [done|].
    intros k x Hk. by destruct k.
  - apply Forall_cons in HP as [Hx Hvs]. simpl in Hlen.
    destruct (IH (S i) (<[i := g x σ]> acc) (h x σ))
      as (acc' & Hrun & Hlen' & Hlow & Hfill).
    { eapply Forall_impl; [exact Hvs|]. intros y Hy. by apply P_step. }
    { rewrite length_insert. lia. }
    exists acc'. split; [|split; [|split]].
    + simpl. unfold bind at 1. rewrite body_step by (done || lia). exact Hrun.
    + by rewrite Hlen', length_insert.
    + intros j Hj. rewrite Hlow by lia. apply list_lookup_insert_ne. lia.
    + intros [|k] y Hk; simpl in Hk.
      * injection Hk as <-. rewrite Nat.add_0_r, Hlow by lia.
        apply list_lookup_insert_eq. lia.
      * replace (i + S k) with (S i + k) by lia. by apply Hfill.
Qed.

(** A loop from index 0 over as many elements as the container has. *)
Lemma range_from_0 vs acc σ :
  Forall (P σ) vs -> length acc = length vs ->
  exists acc',
    range_from body 0 vs acc σ = Some (acc', after h σ vs)
    /\ length acc' = length vs
    /\ (forall k x, vs !! k = Some x ->
          acc' !! k = Some (g x (after h σ (take k vs)))).
Proof.
  intros HP Hlen.
  destruct (range_from_fills vs 0 acc σ) as (acc' & Hrun & Hlen' & _ & Hfill);
    [done|lia|].
  exists acc'. split; [done|]. split; [congruence|]. exact Hfill.
Qed.

End RangeFrom.

Section RangeEntries.
Context {T A B : Type}.
Variable body : string -> A -> gomap B -> go T (gomap B).
Variable g : A -> store T -> B.
Variable h : A -> store T -> store T.
Variable P : store T -> A -> Prop.

Hypothesis body_step : forall k x (m : gmap string B) σ,
  P σ x -> body k x (Some m) σ = Some (Some (<[k := g x σ]> m), h x σ).
Hypothesis P_step : forall x y σ, P σ x -> P σ y -> P (h x σ) y.

Lemma range_entries_fills (visit : list (string * A)) :
  forall (m : gmap string B) σ,
  Forall (fun kx => P σ kx.2) visit ->
  exists m' : gmap string B,
    range_entries body visit (Some m) σ = Some (Some m', after h σ visit.*2)
    /\ dom m' = dom m ∪ list_to_set visit.*1
    /\ (forall k, k ∉ visit.*1 -> m' !! k = m !! k)
    /\ (NoDup visit.*1 -> forall i k x, visit !! i = Some (k, x) ->
          m' !! k = Some (g x (after h σ (take i visit.*2)))).
Proof.
  induction visit as [|[k x] visit IH]; intros m σ HP.
  - exists m. split; [done|].
    split; [by rewrite fmap_nil, list_to_set_nil, (right_id_L ∅ (∪))|].
    split; [done|].
    intros _ i k x Hi. by destruct i.
  - apply Forall_cons in HP as [Hx Hvisit]. simpl in Hx.
    destruct (IH (<[k := g x σ]> m) (h x σ))
      as (m' & Hrun & Hdom & Hout & Hfill).
    { eapply Forall_impl; [exact Hvisit|]. intros [k' y] Hy. by apply P_step. }
    exists m'. split; [|split; [|split]].
    + simpl. unfold bind at 1. rewrite body_step by done. exact Hrun.
    + rewrite Hdom, dom_insert_L, fmap_cons, list_to_set_cons. simpl.
      by rewrite (comm_L (∪) {[k]} (dom m)), <- (assoc_L (∪)).
    + intros k' Hk'. rewrite fmap_cons, not_elem_of_cons in Hk'.
      destruct Hk' as [Hne Hk']. rewrite Hout by done.
      by apply lookup_insert_ne.
    + rewrite fmap_cons. intros [Hk Hnd]%NoDup_cons [|i] k' y Hi; simpl in Hi.
      * injection Hi as <- <-. rewrite Hout by done. apply lookup_insert_eq.
      * by apply (Hfill Hnd i k' y).
Qed.

End RangeEntries.

(** ** The emitted helpers on containers *)
Section ContainerFacts.
Context {T : Type} (zero : T).

Local Open Scope go_scope.

Lemma after_unchanged {A} (σ : store T) (vs : list A) :
  after (fun _ σ => σ) σ vs = σ.
Proof. induction vs as [|x vs IH]; [done|]. exact IH. Qed.

Lemma after_declared (σ vs : store T) :
  after (fun x σ => σ ++ [x]) σ vs = σ ++ vs.
Proof.
  revert σ. induction vs as [|x vs IH]; intros σ.
  - by rewrite app_nil_r.
  - unfold after in *. simpl. rewrite IH. by rewrite <- app_assoc.
Qed.

Lemma last_cons_default {A} (x z : A) (vs : list A) :
  List.last (x :: vs) z = List.last vs x.
Proof.
  revert x z. induction vs as [|y vs IH]; intros x z; [done|].
  change (List.last (x :: y :: vs) z) with (List.last (y :: vs) z).
  by rewrite !IH.
Qed.

Lemma after_assigned (σ vs : store T) z :
  after (fun x σ' => <[length σ := x]> σ') (σ ++ [z]) vs =
  σ ++ [List.last vs z].
Proof.
  revert z. induction vs as [|x vs IH]; intros z; [done|].
  unfold after in *. simpl foldl.
  replace (<[length σ := x]> (σ ++ [z])) with (σ ++ [x]).
  - rewrite IH. by rewrite last_cons_default.
  - symmetry. rewrite <- (Nat.add_0_r (length σ)). by rewrite insert_app_r.
Qed.

Lemma length_after_assigned (σ σ' vs : store T) :
  length (after (fun x σ' => <[length σ := x]> σ') σ' vs) = length σ'.
Proof.
  revert σ'. induction vs as [|x vs IH]; intros σ'; [done|].
  unfold after in *. simpl. by rewrite IH, length_insert.
Qed.

(** One iteration of each of the three slice loops. *)
Lemma ToSlice_step i (p : pointer) (acc : list T) (σ : store T) :
  allocated σ p -> i < length acc ->
  (do x <- To zero p; lift (set_index acc i x)) σ =
    Some (<[i := read zero σ p]> acc, σ).
Proof.
  intros Hp Hi.
  assert (To zero p σ = Some (read zero σ p, σ)) as Hread.
  { destruct p as [a|]; [|done].
    destruct (lookup_lt_is_Some_2 σ a Hp) as [v Hv].
    unfold To, load, read. by rewrite Hv. }
  unfold bind. rewrite Hread. unfold set_index.
  by rewrite decide_True by done.
Qed.

Lemma Slice_step_fresh i (x : T) (acc : list pointer) (σ : store T) :
  i < length acc ->
  (do a <- iteration_var None x; lift (set_index acc i (Some a))) σ =
    Some (<[i := Some (length σ)]> acc, σ ++ [x]).
Proof.
  intros Hi. unfold bind, set_index. simpl. by rewrite decide_True by done.
Qed.

Lemma Slice_step_shared a i (x : T) (acc : list pointer) (σ : store T) :
  a < length σ -> i < length acc ->
  (do a' <- iteration_var (Some a) x; lift (set_index acc i (Some a'))) σ =
    Some (<[i := Some a]> acc, <[a := x]> σ).
Proof.
  intros Ha Hi. unfold bind, set_index, iteration_var, bind, assign.
  rewrite decide_True by done. simpl. by rewrite decide_True by done.
Qed.

(** [ToXSlice] never panics on pointers to variables: the result has the
    length of the input and holds at each index what [ToX] reads through the
    pointer at that index. *)
Lemma ToSlice_reads (vs : slice pointer) (σ : store T) :
  Forall (allocated σ) (elements vs) ->
  ToSlice zero vs σ = Some (Some (read zero σ <$> elements vs), σ).
Proof.
  intros Hvs. unfold ToSlice.
  destruct (range_from_0
              (fun i v ps => do x <- To zero v; lift (set_index ps i x))
              (fun p σ => read zero σ p) (fun _ σ => σ) allocated
              ToSlice_step (fun _ _ _ _ Hy => Hy)
              (elements vs) (replicate (length (elements vs)) zero) σ)
    as (acc' & Hrun & Hlen & Hfill); [done|by rewrite length_replicate|].
  unfold bind at 1. rewrite Hrun, after_unchanged. unfold ret.
  do 3 f_equal. apply list_eq. intros k. rewrite list_lookup_fmap.
  destruct (elements vs !! k) as [p|] eqn:Hk.
  - by rewrite (Hfill k p Hk), after_unchanged.
  - apply lookup_ge_None. apply lookup_ge_None in Hk. lia.
Qed.

(** With a variable per iteration, [XSlice] returns the addresses of as many
    new variables as the input has elements, the one at index [k] holding
    element [k]. *)
Lemma Slice_per_iteration (vs : slice T) (σ : store T) :
  Slice zero per_iteration vs σ =
    Some (Some (Some <$> seq (length σ) (length (elements vs))),
          σ ++ elements vs).
Proof.
  change (Slice zero per_iteration vs σ) with
    ((do ps <- range_from
                 (fun i x ps =>
                    do a <- iteration_var None x;
                    lift (set_index ps i (Some a)))
                 0 (elements vs) (replicate (length (elements vs)) None);
      ret (Some ps)) σ).
  destruct (range_from_0
              (fun i x ps =>
                 do a <- iteration_var None x; lift (set_index ps i (Some a)))
              (fun (_ : T) (σ : store T) => Some (length σ))
              (fun x σ => σ ++ [x]) (fun _ _ => True)
              (fun i x acc σ _ Hi => Slice_step_fresh i x acc σ Hi)
              (fun _ _ _ _ _ => I)
              (elements vs) (replicate (length (elements vs)) None) σ)
    as (acc' & Hrun & Hlen & Hfill);
    [by apply Forall_true|by rewrite length_replicate|].
  unfold bind at 1. rewrite Hrun, after_declared. unfold ret.
  do 3 f_equal. apply list_eq. intros k. rewrite list_lookup_fmap.
  destruct (elements vs !! k) as [x|] eqn:Hk.
  - rewrite (Hfill k x Hk), after_declared.
    apply lookup_lt_Some in Hk as Hlt.
    rewrite lookup_seq_lt by done. simpl.
    rewrite length_app, length_take. do 3 f_equal. lia.
  - apply lookup_ge_None in Hk.
    rewrite lookup_seq_ge by done. apply lookup_ge_None. lia.
Qed.

(** With one variable for the statement, [XSlice] returns the address of that
    variable at every index, and the variable holds the last element. *)
Lemma Slice_per_statement (vs : slice T) (σ : store T) :
  Slice zero per_statement vs σ =
    Some (Some (replicate (length (elements vs)) (Some (length σ))),
          σ ++ [List.last (elements vs) zero]).
Proof.
  change (Slice zero per_statement vs σ) with
    ((do ps <- range_from
                 (fun i x ps =>
                    do a <- iteration_var (Some (length σ)) x;
                    lift (set_index ps i (Some a)))
                 0 (elements vs) (replicate (length (elements vs)) None);
      ret (Some ps)) (σ ++ [zero])).
  destruct (range_from_0
              (fun i x ps =>
                 do a <- iteration_var (Some (length σ)) x;
                 lift (set_index ps i (Some a)))
              (fun (_ : T) (_ : store T) => Some (length σ))
              (fun x σ' => <[length σ := x]> σ')
              (fun σ' _ => length σ < length σ')
              (fun i x acc σ' Ha Hi => Slice_step_shared _ i x acc σ' Ha Hi)
              (fun x _ σ' Ha _ =>
                 eq_ind_r (fun n => length σ < n) Ha (length_insert σ' _ x))
              (elements vs) (replicate (length (elements vs)) None)
              (σ ++ [zero]))
    as (acc' & Hrun & Hlen & Hfill).
  { apply Forall_true. intros _. rewrite length_app. simpl. lia. }
  { by rewrite length_replicate. }
  unfold bind at 1. rewrite Hrun, after_assigned. unfold ret.
  do 3 f_equal. apply list_eq. intros k.
  destruct (elements vs !! k) as [x|] eqn:Hk.
  - rewrite (Hfill k x Hk).
    apply lookup_lt_Some in Hk. symmetry. by apply lookup_replicate_2.
  - apply lookup_ge_None in Hk.
    rewrite (proj2 (lookup_ge_None acc' k)) by lia.
    symmetry. apply lookup_ge_None. rewrite length_replicate. lia.
Qed.

(** Whichever way the range variables are declared, [XSlice] returns a slice
    of the length of its input. *)
Lemma Slice_length vars (vs : slice T) (σ : store T) :
  exists ps σ',
    Slice zero vars vs σ = Some (Some ps, σ')
    /\ length ps = length (elements vs).
Proof.
  destruct vars; eexists _, _.
  - split; [apply Slice_per_statement|]. by rewrite length_replicate.
  - split; [apply Slice_per_iteration|].
    by rewrite length_fmap, length_seq.
Qed.

(** One iteration of each of the three map loops. *)
Lemma ToMap_step k (p : pointer) (m : gmap string T) (σ : store T) :
  allocated σ p ->
  (do x <- To zero p; lift (set_key (Some m) k x)) σ =
    Some (Some (<[k := read zero σ p]> m), σ).
Proof.
  intros Hp.
  assert (To zero p σ = Some (read zero σ p, σ)) as Hread.
  { destruct p as [a|]; [|done].
    destruct (lookup_lt_is_Some_2 σ a Hp) as [v Hv].
    unfold To, load, read. by rewrite Hv. }
  unfold bind. by rewrite Hread.
Qed.

Lemma Map_step_shared a k (x : T) (m : gmap string pointer) (σ : store T) :
  a < length σ ->
  (do a' <- iteration_var (Some a) x; lift (set_key (Some m) k (Some a'))) σ =
    Some (Some (<[k := Some a]> m), <[a := x]> σ).
Proof.
  intros Ha. unfold bind, iteration_var, bind, assign.
  by rewrite decide_True by done.
Qed.

(** What an enumeration of the entries of a map visits. *)
Lemma visit_index {A} (visit : list (string * A)) (m : gmap string A) k x :
  visit ≡ₚ map_to_list m -> m !! k = Some x ->
  exists i, visit !! i = Some (k, x).
Proof.
  intros Hvisit Hk. apply list_elem_of_lookup_1.
  rewrite Hvisit. by apply elem_of_map_to_list.
Qed.

Lemma visit_NoDup {A} (visit : list (string * A)) (m : gmap string A) :
  visit ≡ₚ map_to_list m -> NoDup visit.*1.
Proof. intros ->. apply NoDup_fst_map_to_list. Qed.

Lemma visit_keys {A} (visit : list (string * A)) (m : gmap string A) k :
  visit ≡ₚ map_to_list m -> k ∈ visit.*1 <-> is_Some (m !! k).
Proof.
  intros Hvisit. rewrite list_elem_of_fmap. split.
  - intros [[k' x] [-> Hin]]. rewrite Hvisit in Hin.
    apply elem_of_map_to_list in Hin. by exists x.
  - intros [x Hx]. exists (k, x). split; [done|].
    rewrite Hvisit. by apply elem_of_map_to_list.
Qed.

Lemma visit_dom {A} (visit : list (string * A)) (m : gmap string A) :
  visit ≡ₚ map_to_list m ->
  (∅ : gset string) ∪ list_to_set visit.*1 = dom m.
Proof.
  intros Hvisit. rewrite (left_id_L ∅ (∪)). apply set_eq. intros k.
  rewrite elem_of_list_to_set, elem_of_dom. by apply visit_keys.
Qed.

(** [ToXMap] never panics on pointers to variables: the result has the keys
    of the input and holds under each key what [ToX] reads through the
    pointer under that key, in whatever order the map is ranged over. *)
Lemma ToMap_reads visit (m : gmap string pointer) (σ : store T) :
  visit ≡ₚ map_to_list m ->
  map_Forall (fun _ p => allocated σ p) m ->
  ToMap zero visit (Some m) σ = Some (Some (read zero σ <$> m), σ).
Proof.
  intros Hvisit Hm. unfold ToMap.
  destruct (range_entries_fills
              (fun k v ps => do x <- To zero v; lift (set_key ps k x))
              (fun p σ => read zero σ p) (fun _ σ => σ) allocated
              ToMap_step (fun _ _ _ _ Hy => Hy) visit ∅ σ)
    as (m' & Hrun & _ & Hout & Hfill).
  { apply Forall_forall. intros [k p] Hin. simpl.
    rewrite Hvisit in Hin. apply elem_of_map_to_list in Hin.
    by apply (Hm k p). }
  rewrite Hrun, after_unchanged. do 3 f_equal.
  apply map_eq. intros k. rewrite lookup_fmap.
  destruct (m !! k) as [p|] eqn:Hk.
  - destruct (visit_index visit m k p Hvisit Hk) as [i Hi].
    rewrite (Hfill (visit_NoDup visit m Hvisit) i k p Hi).
    by rewrite after_unchanged.
  - rewrite Hout; [done|].
    rewrite (visit_keys visit m k Hvisit), Hk. by intros [? ?].
Qed.

(** With one variable for the statement, [XMap] returns the address of that
    variable under every key of the input. *)
Lemma Map_per_statement visit (m : gmap string T) (σ : store T) :
  visit ≡ₚ map_to_list m ->
  Map zero per_statement visit (Some m) σ =
    Some (Some ((fun _ => Some (length σ)) <$> m),
          σ ++ [List.last visit.*2 zero]).
Proof.
  intros Hvisit.
  change (Map zero per_statement visit (Some m) σ) with
    (range_entries
       (fun k x ps =>
          do a <- iteration_var (Some (length σ)) x;
          lift (set_key ps k (Some a)))
       visit (Some ∅) (σ ++ [zero])).
  destruct (range_entries_fills
              (fun k x ps =>
                 do a <- iteration_var (Some (length σ)) x;
                 lift (set_key ps k (Some a)))
              (fun (_ : T) (_ : store T) => Some (length σ))
              (fun x σ' => <[length σ := x]> σ')
              (fun σ' _ => length σ < length σ')
              (fun k x m' σ' Ha => Map_step_shared _ k x m' σ' Ha)
              (fun x _ σ' Ha _ =>
                 eq_ind_r (fun n => length σ < n) Ha (length_insert σ' _ x))
              visit ∅ (σ ++ [zero]))
    as (m' & Hrun & _ & Hout & Hfill).
  { apply Forall_true. intros _. rewrite length_app. simpl. lia. }
  rewrite Hrun, after_assigned. do 3 f_equal.
  apply map_eq. intros k. rewrite lookup_fmap.
  destruct (m !! k) as [x|] eqn:Hk.
  - destruct (visit_index visit m k x Hvisit Hk) as [i Hi].
    by rewrite (Hfill (visit_NoDup visit m Hvisit) i k x Hi).
  - rewrite Hout; [done|].
    rewrite (visit_keys visit m k Hvisit), Hk. by intros [? ?].
Qed.

(** With a variable per iteration, [XMap] returns under each key the address
    of a new variable that holds the value of that key, and no two keys get
    the same address. *)
Lemma Map_per_iteration visit (m : gmap string T) (σ : store T) :
  visit ≡ₚ map_to_list m ->
  exists ps : gmap string pointer,
    Map zero per_iteration visit (Some m) σ = Some (Some ps, σ ++ visit.*2)
    /\ dom ps = dom m
    /\ (forall k x, m !! k = Some x ->
          exists i, visit !! i = Some (k, x)
                    /\ ps !! k = Some (Some (length σ + i))
                    /\ (σ ++ visit.*2) !! (length σ + i) = Some x).
Proof.
  intros Hvisit.
  change (Map zero per_iteration visit (Some m) σ) with
    (range_entries
       (fun k x ps =>
          do a <- iteration_var None x; lift (set_key ps k (Some a)))
       visit (Some ∅) σ).
  destruct (range_entries_fills
              (fun k x ps =>
                 do a <- iteration_var None x; lift (set_key ps k (Some a)))
              (fun (_ : T) (σ : store T) => Some (length σ))
              (fun x σ => σ ++ [x]) (fun _ _ => True)
              (fun k x m' σ' _ => eq_refl)
              (fun _ _ _ _ _ => I) visit ∅ σ)
    as (m' & Hrun & Hdom & _ & Hfill); [by apply Forall_true|].
  exists m'. rewrite Hrun, after_declared. split; [done|].
  split.
  { etrans; [exact Hdom|]. rewrite dom_empty_L. by apply visit_dom. }
  intros k x Hk.
  destruct (visit_index visit m k x Hvisit Hk) as [i Hi].
  exists i. split; [done|].
  apply lookup_lt_Some in Hi as Hlt.
  split.
  - etrans; [exact (Hfill (visit_NoDup visit m Hvisit) i k x Hi)|].
    rewrite after_declared, length_app, length_take, length_fmap.
    do 2 f_equal. lia.
  - rewrite lookup_app_r by lia.
    replace (length σ + i - length σ) with i by lia.
    by rewrite list_lookup_fmap, Hi.
Qed.

(** Whichever way the range variables are declared and whatever the order of
    the range, [XMap] returns a map with the keys of its input. *)
Lemma Map_dom vars visit (m : gmap string T) (σ : store T) :
  visit ≡ₚ map_to_list m ->
  exists (ps : gmap string pointer) σ',
    Map zero vars visit (Some m) σ = Some (Some ps, σ') /\ dom ps = dom m.
Proof.
  intros Hvisit. destruct vars.
  - eexists _, _. split; [by apply Map_per_statement|]. apply dom_fmap_L.
  - destruct (Map_per_iteration visit m σ Hvisit) as (ps & Hrun & Hdom & _).
    by exists ps, (σ ++ visit.*2).
Qed.

End ContainerFacts.

Section FailingInputs.

Local Open Scope go_scope.

(** C1 fails on the code: with one variable [v] for the whole range
    statement, [StringSlice] of two strings returns the address of [v]
    twice, and [v] is left holding the last string, so reading the result
    back gives the last string at both indices. *)
Theorem Slice_repeats_one_pointer :
  Slice EmptyString per_statement (Some ["a"; "b"]) [] =
    Some (Some [Some 0; Some 0], ["b"])
  /\ (do ps <- Slice EmptyString per_statement (Some ["a"; "b"]);
      ToSlice EmptyString ps) [] =
     Some (Some ["b"; "b"], ["b"]).
Proof. split; reflexivity. Qed.

(** C2 fails on the code: in either order of the range over the map,
    [IntMap] of two entries gives both keys the address of the one
    variable [v], which is left holding the value visited last. *)
Theorem Map_repeats_one_pointer :
  Map 0%Z per_statement [("a", 1%Z); ("b", 2%Z)]
    (Some (<["a" := 1%Z]> (<["b" := 2%Z]> ∅))) [] =
    Some (Some (<["a" := Some 0]> (<["b" := Some 0]> ∅)), [2%Z])
  /\ Map 0%Z per_statement [("b", 2%Z); ("a", 1%Z)]
       (Some (<["a" := 1%Z]> (<["b" := 2%Z]> ∅))) [] =
     Some (Some (<["a" := Some 0]> (<["b" := Some 0]> ∅)), [1%Z]).
Proof. split; vm_compute; reflexivity. Qed.

End FailingInputs.

(** ** Further properties of the catalogue *)
Section MoreCatalogueFacts.

Local Arguments String.append !_ _ / : simpl nomatch.

Lemma length_append a b :
  String.length (a +:+ b) = String.length a + String.length b.
Proof. induction a as [|c a IH]; [done|]. simpl. by rewrite IH. Qed.

Lemma append_cancel_r a b : a +:+ b = b -> a = EmptyString.
Proof.
  intros H. apply (f_equal String.length) in H.
  rewrite length_append in H. destruct a; [done|]. simpl in H. lia.
Qed.

Lemma Package_empty_iff i :
  Package i = EmptyString <->
  Alias i = EmptyString /\ (Path i = EmptyString \/ ends_in_slash (Path i)).
Proof.
  split.
  - intros Hp.
    destruct (decide (Alias i = EmptyString)) as [Ha|Ha];
      [|by rewrite Package_alias in Hp].
    split; [done|]. rewrite Package_no_alias in Hp by done.
    destruct (Split_cases (Path i) "/"%char)
      as [[_ Hs]|(before & seg & Hpath & _ & _ & Hlast)].
    + left. rewrite Hs in Hp. done.
    + right. exists before. congruence.
  - intros [Ha Hpath]. rewrite Package_no_alias by done.
    destruct Hpath as [->|[before Hpath]]; [done|].
    eapply (last_segment_unique "/"%char (Path i));
      [apply Split_last_segment|].
    split; [done|right; by exists before].
Qed.

(** X1: the symbol of an imported scalar is the bare [.Type], with nothing
    before the dot, exactly when the import has no alias and its path is
    empty or ends in a slash. *)
Theorem Symbol_bare_dot t i :
  Import_ t = Some i ->
  Symbol t = "." +:+ Type_ t <->
  Alias i = EmptyString /\ (Path i = EmptyString \/ ends_in_slash (Path i)).
Proof.
  intros Hi. unfold Symbol. rewrite Hi, <- Package_empty_iff. split.
  - intros H. by apply append_cancel_r in H.
  - by intros ->.
Qed.

Lemma Symbol_bare_dot_witness :
  Symbol {| Type_ := "Time";
            Import_ := Some {| Path := "std/"; Alias := "" |} |} =
    "." +:+ "Time" <->
  EmptyString = EmptyString /\
  ("std/" = EmptyString \/ ends_in_slash "std/").
Proof.
  apply (Symbol_bare_dot
           {| Type_ := "Time";
              Import_ := Some {| Path := "std/"; Alias := "" |} |}
           {| Path := "std/"; Alias := "" |}).
  reflexivity.
Defined.

(** X2: the imports of two catalogues put one after the other are the
    imports of the first followed by those of the second; there are never
    more imports than scalars, and none when no scalar has one. *)
Theorem Imports_app ts1 ts2 :
  Imports (ts1 ++ ts2) = Imports ts1 ++ Imports ts2
  /\ length (Imports ts1) <= length ts1
  /\ (Imports ts1 = [] <-> Forall (fun t => Import_ t = None) ts1).
Proof.
  rewrite !Imports_omap. split; [apply omap_app|]. split.
  - induction ts1 as [|t ts IH]; [done|].
    cbn. destruct (Import_ t); simpl in *; lia.
  - induction ts1 as [|t ts IH]; [by split|].
    cbn. destruct (Import_ t) as [i|] eqn:Ht.
    + split; [done|]. intros H. apply Forall_cons in H as [H _]. congruence.
    + rewrite IH. split.
      * intros H. by apply Forall_cons.
      * intros H. by apply Forall_cons in H as [_ H].
Qed.

Lemma ToTitle_lower c : is_lower c = true -> is_upper (ToTitle c) = true.
Proof.
  destruct c as [[] [] [] [] [] [] [] []]; vm_compute; congruence.
Qed.

Lemma ToTitle_upper c : is_upper c = true -> ToTitle c = c.
Proof.
  destruct c as [[] [] [] [] [] [] [] []]; vm_compute; congruence.
Qed.

(** X3: for a type name made of letters, digits and underscores that starts
    with a letter, [Name] starts with an upper-case letter, keeps the other
    characters, and is made of letters, digits and underscores too: the
    names built from it are exported Go identifiers. *)
Theorem Name_exported t c rest :
  Type_ t = String c rest ->
  identifier (Type_ t) = true ->
  is_lower c || is_upper c = true ->
  exists C,
    Name t = String C rest
    /\ is_upper C = true
    /\ identifier (Name t) = true.
Proof.
  intros Hty Hid Hletter. unfold Name, Title. rewrite Hty in *.
  simpl in Hid. apply andb_true_iff in Hid as [Hc Hrest].
  assert (isSeparator c = false) as Hsep.
  { unfold isSeparator. destruct (is_7bit c); [|done].
    unfold identifier_byte in Hc. by rewrite Hc. }
  exists (ToTitle c). simpl Title_from.
  rewrite (Title_from_identifier c rest Hsep Hrest).
  assert (is_upper (ToTitle c) = true) as Hup.
  { apply orb_true_iff in Hletter as [Hl|Hu].
    - by apply ToTitle_lower.
    - by rewrite ToTitle_upper. }
  split; [done|]. split; [done|].
  simpl. rewrite Hrest, andb_true_r.
  unfold identifier_byte. by rewrite Hup, orb_true_r.
Qed.

Lemma Name_exported_witness :
  exists C,
    Name (builtin "uint16") = String C "int16"
    /\ is_upper C = true
    /\ identifier (Name (builtin "uint16")) = true.
Proof.
  apply (Name_exported (builtin "uint16") "u"%char "int16");
    reflexivity.
Defined.

End MoreCatalogueFacts.

(** ** Further properties of rendering and of the emitter *)
Section MoreRenderFacts.

Local Arguments String.append !_ _ / : simpl nomatch.

Lemma append_assoc a b c : (a +:+ b) +:+ c = a +:+ (b +:+ c).
Proof. induction a as [|x a IH]; [done|]. simpl. by rewrite IH. Qed.

Lemma append_empty_r a : a +:+ EmptyString = a.
Proof. induction a as [|x a IH]; [done|]. simpl. by f_equal. Qed.

Lemma concat_strings_app l1 l2 :
  concat_strings (l1 ++ l2) = concat_strings l1 +:+ concat_strings l2.
Proof.
  induction l1 as [|x l1 IH]; [done|].
  simpl. unfold concat_strings in *. simpl. by rewrite IH, append_assoc.
Qed.

Lemma functions_app one many ts1 ts2 :
  functions one many (ts1 ++ ts2) =
  functions one many ts1 +:+ functions one many ts2.
Proof. unfold functions. by rewrite fmap_app, concat_strings_app. Qed.

Lemma document_functions one many ts :
  document one many ts =
  line 1 (header ts) +:+ nl +:+ line 1 "" +:+ functions one many ts.
Proof. reflexivity. Qed.

Lemma header_app_no_import ts1 ts2 :
  Forall (fun t => Import_ t = None) ts2 -> header (ts1 ++ ts2) = header ts1.
Proof.
  intros Hno. unfold header. do 5 f_equal.
  rewrite !Imports_omap, omap_app.
  replace (omap Import_ ts2) with (@nil Import); [by rewrite app_nil_r|].
  induction Hno as [|t ts Ht _ IH]; [done|]. cbn. by rewrite Ht.
Qed.

(** X4: scalars without an import that are added at the end of a catalogue
    leave the text rendered so far as it is: either document of the longer
    catalogue is the document of the shorter one followed by the function
    bodies of the added scalars, in their order. *)
Theorem documents_grow_at_the_end ts1 ts2 :
  Forall (fun t => Import_ t = None) ts2 ->
  scalar_to_pointer (ts1 ++ ts2) =
    scalar_to_pointer ts1 +:+ functions to_pointer_func to_pointers_func ts2
  /\ scalar_from_pointer (ts1 ++ ts2) =
       scalar_from_pointer ts1
       +:+ functions from_pointer_func from_pointers_func ts2.
Proof.
  intros Hno. unfold scalar_to_pointer, scalar_from_pointer.
  rewrite !document_functions, !functions_app, (header_app_no_import _ _ Hno).
  by rewrite !append_assoc.
Qed.

Lemma documents_grow_at_the_end_witness :
  scalar_to_pointer ([builtin "int"] ++ [builtin "bool"]) =
    scalar_to_pointer [builtin "int"]
    +:+ functions to_pointer_func to_pointers_func [builtin "bool"]
  /\ scalar_from_pointer ([builtin "int"] ++ [builtin "bool"]) =
       scalar_from_pointer [builtin "int"]
       +:+ functions from_pointer_func from_pointers_func [builtin "bool"].
Proof.
  apply (documents_grow_at_the_end [builtin "int"] [builtin "bool"]).
  repeat constructor.
Defined.

Lemma generateFile_refused filename tmplName ts d :
  refused d filename = true ->
  generateFile filename tmplName ts d =
    (d, Some (failed_to_create filename)).
Proof. intros H. unfold generateFile. by rewrite H. Qed.

Lemma generateFile_keeps_refused filename tmplName ts d :
  refused (generateFile filename tmplName ts d).1 = refused d.
Proof.
  unfold generateFile. destruct (refused d filename); [done|].
  by destruct (ExecuteTemplate tmplName ts).
Qed.

Lemma generateFile_ok_iff filename tmplName ts d :
  (generateFile filename tmplName ts d).2 = None <->
  refused d filename = false /\ renders tmplName ts = true.
Proof.
  unfold generateFile, renders. destruct (refused d filename).
  - split; [done|]. by intros [? _].
  - destruct (ExecuteTemplate tmplName ts); simpl; split; try done.
    by intros [_ ?].
Qed.

(** X5: the loop of [main] returns normally exactly when every file it
    visits could be created and every template it visits rendered; one
    refusal or one failed rendering ends it in [log.Fatalf]. *)
Theorem generate_all_returns_iff visit ts d :
  (generate_all visit ts d).2 = returned <->
  Forall (fun ft => refused d ft.1 = false /\ renders ft.2 ts = true) visit.
Proof.
  revert d. induction visit as [|[filename tmplName] visit IH]; intros d.
  - split; [by constructor|done].
  - simpl generate_all.
    pose proof (generateFile_ok_iff filename tmplName ts d) as Hok.
    pose proof (generateFile_keeps_refused filename tmplName ts d) as Hkeep.
    destruct (generateFile filename tmplName ts d) as [d' [err|]];
      simpl in Hok, Hkeep.
    + split; [done|]. intros H. apply Forall_cons in H as [H _].
      apply Hok in H. done.
    + rewrite IH, Forall_cons, Hkeep. simpl.
      split; [intros H; split; [by apply Hok|done]|by intros [_ H]].
Qed.

(** X6: the loop of [main] touches no file besides those it visits: the
    text of every other file, and what [os.Create] refuses, are after the
    loop what they were before, however the loop ends. *)
Theorem generate_all_touches_visited_only visit ts d filename :
  filename ∉ visit.*1 ->
  files (generate_all visit ts d).1 !! filename = files d !! filename
  /\ refused (generate_all visit ts d).1 = refused d.
Proof.
  revert d. induction visit as [|[f tmplName] visit IH]; intros d Hnot;
    [done|].
  rewrite fmap_cons, not_elem_of_cons in Hnot. destruct Hnot as [Hne Hnot].
  simpl generate_all.
  assert (files (generateFile f tmplName ts d).1 !! filename =
          files d !! filename) as Hfile.
  { unfold generateFile. destruct (refused d f); [done|].
    destruct (ExecuteTemplate tmplName ts); simpl;
      by rewrite lookup_insert_ne. }
  pose proof (generateFile_keeps_refused f tmplName ts d) as Hkeep.
  destruct (generateFile f tmplName ts d) as [d' [err|]];
    simpl in Hfile, Hkeep; [done|].
  destruct (IH d' Hnot) as [Hfiles Href]. split; congruence.
Qed.

Lemma generate_all_touches_visited_only_witness :
  files (generate_all (map_to_list outputs) types empty_directory).1
    !! "go.mod" = files empty_directory !! "go.mod"
  /\ refused (generate_all (map_to_list outputs) types empty_directory).1 =
     refused empty_directory.
Proof.
  apply (generate_all_touches_visited_only
           (map_to_list outputs) types empty_directory "go.mod").
  vm_compute. intros H.
  repeat (apply list_elem_of_In in H; destruct H as [H|H]; [discriminate|];
          apply list_elem_of_In in H).
  by apply elem_of_nil in H.
Defined.

(** X7: when [to_ptr.go] cannot be created and [from_ptr.go] can, what the
    loop of [main] leaves depends on the order of its range over the map:
    visiting [to_ptr.go] first it writes nothing, visiting it second it has
    written [from_ptr.go] before.  Both orders end in [log.Fatalf] naming
    [to_ptr.go]. *)
Theorem failed_run_depends_on_order ts d :
  refused d "to_ptr.go" = true ->
  refused d "from_ptr.go" = false ->
  generate_all
    [("to_ptr.go", "scalar to pointer"); ("from_ptr.go", "scalar from pointer")]
    ts d =
    (d, fatal "to_ptr.go" (failed_to_create "to_ptr.go"))
  /\ generate_all
       [("from_ptr.go", "scalar from pointer"); ("to_ptr.go", "scalar to pointer")]
       ts d =
       (write "from_ptr.go" (scalar_from_pointer ts) d,
        fatal "to_ptr.go" (failed_to_create "to_ptr.go")).
Proof.
  intros Hto Hfrom. split; simpl generate_all.
  - by rewrite generateFile_refused.
  - rewrite generateFile_from by done. by rewrite generateFile_refused.
Qed.

Lemma failed_run_depends_on_order_witness :
  generate_all
    [("to_ptr.go", "scalar to pointer"); ("from_ptr.go", "scalar from pointer")]
    types {| files := ∅; refused := String.eqb "to_ptr.go" |} =
    ({| files := ∅; refused := String.eqb "to_ptr.go" |},
     fatal "to_ptr.go" (failed_to_create "to_ptr.go"))
  /\ generate_all
       [("from_ptr.go", "scalar from pointer"); ("to_ptr.go", "scalar to pointer")]
       types {| files := ∅; refused := String.eqb "to_ptr.go" |} =
       (write "from_ptr.go" (scalar_from_pointer types)
          {| files := ∅; refused := String.eqb "to_ptr.go" |},
        fatal "to_ptr.go" (failed_to_create "to_ptr.go")).
Proof.
  apply (failed_run_depends_on_order types
           {| files := ∅; refused := String.eqb "to_ptr.go" |});
    reflexivity.
Defined.

End MoreRenderFacts.

(** ** Further properties of the emitted helpers *)
Section MoreHelperFacts.
Context {T : Type} (zero : T).

Local Open Scope go_scope.

(** X8: [X(v)] returns a pointer that is not nil, to a variable that did
    not exist before the call and holds [v]; what is read through the
    pointers that existed before is what it was. *)
Theorem Ptr_fresh (v : T) (σ : store T) :
  exists a σ',
    Ptr v σ = Some (Some a, σ')
    /\ ~ allocated σ (Some a)
    /\ σ' !! a = Some v
    /\ forall p, allocated σ p -> read zero σ' p = read zero σ p.
Proof.
  exists (length σ), (σ ++ [v]). split; [done|]. split; [simpl; lia|].
  split; [apply list_lookup_middle; done|].
  intros [a|] Ha; [|done]. simpl in *. by rewrite lookup_app_l.
Qed.

(** X9: on a slice of pointers that are nil or point to variables,
    [ToXSlice] does not panic and leaves the store as it is; the result has
    the length of the input and holds at each index what is read through the
    pointer at that index, the zero value for nil. *)
Theorem ToSlice_elementwise (vs : slice pointer) (σ : store T) :
  Forall (allocated σ) (elements vs) ->
  exists ps,
    ToSlice zero vs σ = Some (Some ps, σ)
    /\ length ps = length (elements vs)
    /\ forall i p, elements vs !! i = Some p ->
         ps !! i = Some (read zero σ p).
Proof.
  intros Hvs. exists (read zero σ <$> elements vs).
  split; [by apply ToSlice_reads|]. split; [by rewrite length_fmap|].
  intros i p Hi. by rewrite list_lookup_fmap, Hi.
Qed.

(** X10: on a map of pointers that are nil or point to variables, [ToXMap]
    does not panic and leaves the store as it is, in whatever order it ranges
    over the map; the result has the keys of the input and holds under each
    key what is read through the pointer under that key, the zero value for
    nil. *)
Theorem ToMap_keywise visit (m : gmap string pointer) (σ : store T) :
  visit ≡ₚ map_to_list m ->
  map_Forall (fun _ p => allocated σ p) m ->
  exists ps : gmap string T,
    ToMap zero visit (Some m) σ = Some (Some ps, σ)
    /\ dom ps = dom m
    /\ forall k p, m !! k = Some p -> ps !! k = Some (read zero σ p).
Proof.
  intros Hvisit Hm. exists (read zero σ <$> m).
  split; [by apply ToMap_reads|]. split; [apply dom_fmap_L|].
  intros k p Hk. by rewrite lookup_fmap, Hk.
Qed.

(** X11: with one variable for the range statement, [XSlice] returns for
    every input a slice of the input's length whose entries are all the
    address of one new variable; that variable holds the last element of the
    input (the zero value when there is none), and the variables that existed
    before are unchanged. *)
Theorem Slice_shares_one_variable (vs : slice T) (σ : store T) :
  exists ps σ',
    Slice zero per_statement vs σ = Some (Some ps, σ')
    /\ length ps = length (elements vs)
    /\ (forall i, i < length (elements vs) ->
          ps !! i = Some (Some (length σ)))
    /\ σ' !! length σ = Some (List.last (elements vs) zero)
    /\ forall a, a < length σ -> σ' !! a = σ !! a.
Proof.
  eexists _, _. split; [apply Slice_per_statement|].
  split; [by rewrite length_replicate|].
  split; [intros i Hi; by apply lookup_replicate_2|].
  split; [by apply list_lookup_middle|].
  intros a Ha. by apply lookup_app_l.
Qed.

(** X12: with one variable for the range statement, [XMap] returns for every
    input and every order of the range a map with the keys of the input whose
    values are all the address of one new variable; that variable holds the
    value visited last. *)
Theorem Map_shares_one_variable visit (m : gmap string T) (σ : store T) :
  visit ≡ₚ map_to_list m ->
  exists (ps : gmap string pointer) σ',
    Map zero per_statement visit (Some m) σ = Some (Some ps, σ')
    /\ dom ps = dom m
    /\ (forall k, is_Some (m !! k) -> ps !! k = Some (Some (length σ)))
    /\ σ' !! length σ = Some (List.last visit.*2 zero).
Proof.
  intros Hvisit. eexists _, _.
  split; [by apply Map_per_statement|]. split; [apply dom_fmap_L|].
  split; [|by apply list_lookup_middle].
  intros k [x Hk]. by rewrite lookup_fmap, Hk.
Qed.

Lemma allocated_seq (σ vs : store T) :
  Forall (allocated (σ ++ vs)) (Some <$> seq (length σ) (length vs)).
Proof.
  apply Forall_forall. intros p Hp.
  apply list_elem_of_fmap in Hp as [a [-> Ha]].
  apply elem_of_seq in Ha. simpl. rewrite length_app. lia.
Qed.

Lemma read_seq (σ vs : store T) :
  read zero (σ ++ vs) <$> (Some <$> seq (length σ) (length vs)) = vs.
Proof.
  apply list_eq. intros k. rewrite !list_lookup_fmap.
  destruct (vs !! k) as [x|] eqn:Hk.
  - apply lookup_lt_Some in Hk as Hlt.
    rewrite lookup_seq_lt by done. simpl.
    rewrite lookup_app_r by lia.
    replace (length σ + k - length σ) with k by lia. by rewrite Hk.
  - apply lookup_ge_None in Hk. by rewrite lookup_seq_ge.
Qed.

(** X13: with a variable per iteration, [ToXSlice] of [XSlice] gives back
    the elements of the input, for every input; the store grows by one
    variable per element. *)
Theorem Slice_ToSlice_per_iteration (vs : slice T) (σ : store T) :
  (do ps <- Slice zero per_iteration vs; ToSlice zero ps) σ =
    Some (Some (elements vs), σ ++ elements vs).
Proof.
  unfold bind. rewrite Slice_per_iteration.
  rewrite ToSlice_reads by apply allocated_seq.
  simpl elements. by rewrite read_seq.
Qed.

(** X14: with one variable for the range statement, [ToXSlice] of [XSlice]
    gives the last element of the input at every index. *)
Theorem Slice_ToSlice_per_statement (vs : slice T) (σ : store T) :
  (do ps <- Slice zero per_statement vs; ToSlice zero ps) σ =
    Some (Some (replicate (length (elements vs))
                  (List.last (elements vs) zero)),
          σ ++ [List.last (elements vs) zero]).
Proof.
  unfold bind. rewrite Slice_per_statement.
  rewrite ToSlice_reads.
  - simpl elements. rewrite fmap_replicate. simpl.
    by rewrite list_lookup_middle.
  - simpl elements. apply Forall_replicate. simpl.
    rewrite length_app. simpl. lia.
Qed.

(** X15: with a variable per iteration, [ToXMap] of [XMap] gives back the
    input map, for every input and whatever the orders of the two ranges. *)
Theorem Map_ToMap_per_iteration visit (m : gmap string T) (σ : store T) :
  visit ≡ₚ map_to_list m ->
  exists (ps : gmap string pointer) σ',
    Map zero per_iteration visit (Some m) σ = Some (Some ps, σ')
    /\ forall visit',
         visit' ≡ₚ map_to_list ps ->
         ToMap zero visit' (Some ps) σ' = Some (Some m, σ').
Proof.
  intros Hvisit.
  destruct (Map_per_iteration zero visit m σ Hvisit)
    as (ps & Hrun & Hdom & Hps).
  exists ps, (σ ++ visit.*2). split; [done|]. intros visit' Hvisit'.
  assert (forall k, m !! k = None -> ps !! k = None) as Hnone.
  { intros k Hk. apply not_elem_of_dom. rewrite Hdom.
    by apply not_elem_of_dom. }
  assert (map_Forall (fun _ p => allocated (σ ++ visit.*2) p) ps) as Hall.
  { intros k p Hk. destruct (m !! k) as [x|] eqn:Hm.
    - destruct (Hps k x Hm) as (i & _ & Hp & Hx).
      pose proof (eq_trans (eq_sym Hk) Hp) as E. injection E as ->.
      by apply lookup_lt_Some in Hx.
    - pose proof (eq_trans (eq_sym Hk) (Hnone k Hm)) as E. done. }
  rewrite (ToMap_reads zero visit' ps _ Hvisit' Hall).
  do 3 f_equal. apply map_eq. intros k. rewrite lookup_fmap.
  destruct (m !! k) as [x|] eqn:Hm.
  - destruct (Hps k x Hm) as (i & _ & Hp & Hx).
    etrans; [exact (f_equal (fmap _) Hp)|]. simpl. by rewrite Hx.
  - exact (f_equal (fmap _) (Hnone k Hm)).
Qed.

(** X16: with one variable for the range statement, [ToXMap] of [XMap]
    gives under every key the value the range of [XMap] visited last. *)
Theorem Map_ToMap_per_statement visit (m : gmap string T) (σ : store T) :
  visit ≡ₚ map_to_list m ->
  exists (ps : gmap string pointer) σ',
    Map zero per_statement visit (Some m) σ = Some (Some ps, σ')
    /\ forall visit',
         visit' ≡ₚ map_to_list ps ->
         ToMap zero visit' (Some ps) σ' =
           Some (Some ((fun _ => List.last visit.*2 zero) <$> m), σ').
Proof.
  intros Hvisit. eexists _, _.
  split; [by apply Map_per_statement|]. intros visit' Hvisit'.
  assert (map_Forall
            (fun _ p => allocated (σ ++ [List.last visit.*2 zero]) p)
            ((fun _ : T => Some (length σ)) <$> m)) as Hall.
  { intros k p [x [<- _]]%lookup_fmap_Some.
    simpl. rewrite length_app. simpl. lia. }
  rewrite (ToMap_reads zero visit' _ _ Hvisit' Hall).
  do 3 f_equal. rewrite <- map_fmap_compose. apply map_fmap_ext.
  intros k x _. simpl. by rewrite list_lookup_middle.
Qed.

End MoreHelperFacts.

Section HelperWitnesses.

Lemma ToSlice_elementwise_witness :
  exists ps,
    ToSlice 0%Z (Some [Some 0; None]) [5%Z] = Some (Some ps, [5%Z])
    /\ length ps = length (elements (Some [Some 0; None : pointer]))
    /\ forall i p, elements (Some [Some 0; None]) !! i = Some p ->
         ps !! i = Some (read 0%Z [5%Z] p).
Proof.
  apply (ToSlice_elementwise 0%Z (Some [Some 0; None]) [5%Z]).
  apply Forall_cons. split; [simpl; lia|].
  apply Forall_cons. split; [exact I|]. constructor.
Defined.

Lemma ToMap_keywise_witness :
  exists ps : gmap string Z,
    ToMap 0%Z (map_to_list nil_and_first) (Some nil_and_first) [5%Z] =
      Some (Some ps, [5%Z])
    /\ dom ps = dom nil_and_first
    /\ forall k p,
         nil_and_first !! k = Some p -> ps !! k = Some (read 0%Z [5%Z] p).
Proof.
  apply (ToMap_keywise 0%Z (map_to_list nil_and_first) nil_and_first [5%Z]).
  - reflexivity.
  - apply map_Forall_to_list. vm_compute.
    apply Forall_cons. split; [exact I|].
    apply Forall_cons. split; [lia|]. constructor.
Defined.

Lemma Map_shares_one_variable_witness :
  exists (ps : gmap string pointer) σ',
    Map 0%Z per_statement (map_to_list two_ints) (Some two_ints) [] =
      Some (Some ps, σ')
    /\ dom ps = dom two_ints
    /\ (forall k, is_Some (two_ints !! k) ->
          ps !! k = Some (Some (length (@nil Z))))
    /\ σ' !! length (@nil Z) =
       Some (List.last (map_to_list two_ints).*2 0%Z).
Proof.
  apply (Map_shares_one_variable 0%Z (map_to_list two_ints) two_ints []).
  reflexivity.
Defined.

Lemma Map_ToMap_per_iteration_witness :
  exists (ps : gmap string pointer) σ',
    Map 0%Z per_iteration (map_to_list two_ints) (Some two_ints) [] =
      Some (Some ps, σ')
    /\ forall visit',
         visit' ≡ₚ map_to_list ps ->
         ToMap 0%Z visit' (Some ps) σ' = Some (Some two_ints, σ').
Proof.
  apply (Map_ToMap_per_iteration 0%Z (map_to_list two_ints) two_ints []).
  reflexivity.
Defined.

Lemma Map_ToMap_per_statement_witness :
  exists (ps : gmap string pointer) σ',
    Map 0%Z per_statement (map_to_list two_ints) (Some two_ints) [] =
      Some (Some ps, σ')
    /\ forall visit',
         visit' ≡ₚ map_to_list ps ->
         ToMap 0%Z visit' (Some ps) σ' =
           Some (Some ((fun _ => List.last (map_to_list two_ints).*2 0%Z)
                       <$> two_ints), σ').
Proof.
  apply (Map_ToMap_per_statement 0%Z (map_to_list two_ints) two_ints []).
  reflexivity.
Defined.

End HelperWitnesses.
